(** * TMSU command-line core: option resolution ([src/tmsu/cli/command.go])

    The file embeds the [Command] interface, the package variable
    [globalOptions] and the resolver [LookupOption] of package [cli], and
    proves the properties of the resolver: precedence of the global registry,
    fall-back to the command's own options, negative lookups, exact name
    matching, first-declared-wins, soundness of positive results and the
    absence of writes to existing memory.  Further properties follow: when
    [Options()] is called, freshness of the returned cell, stability under
    appended options, reachability under distinct names, full shadowing,
    and non-interference of successive calls.

    Go features that the resolver relies on are modelled explicitly:
    - [globalOptions] is a package-level [var], so it lives in the store;
    - [return &option] takes the address of the loop variable, which holds a
      copy of the slice element: the result designates a fresh heap cell;
    - [command.Options()] is a dynamic call through an interface value, which
      panics when the interface value is nil. *)

From Stdlib Require Import List String Bool Arith Lia.
Import ListNotations.
Open Scope string_scope.
Open Scope list_scope.

(** ** Data model *)

(** Modelled from the spec: the struct type [Option] is declared outside
    command.go.  The spec gives it as the triple
    [{ShortName, LongName, Description}] of strings, in this order, which is
    the order the positional literals of [globalOptions] rely on; the
    resolver reads the fields [LongName] and [ShortName]. *)
Record Option : Type := mkOption {
  ShortName : string;
  LongName : string;
  Description : string
}.

(** Modelled from the spec: [Options] is declared outside command.go; it is
    ranged over and built by a composite literal of [Option] values, an
    ordered sequence of [Option]. *)
Definition Options : Type := list Option.

(** Modelled from the spec: [CommandName] is declared outside command.go;
    an identifier for registry lookup. *)
Definition CommandName : Type := string.

(** Go's [error] interface, as far as the signature of [Exec] needs it:
    absent, or a message. *)
Definition error : Type := option string.

Definition ExecSignature : Type := Options -> list string -> error.

Module Command.

(** The method set of [type Command interface]. An implementation is a
    value that answers each method; [Options] answers with the sequence
    the command declares. *)
Record methods : Type := Build {
  Name : CommandName;
  Synopsis : string;
  Description : string;
  Options : Options;
  Exec : ExecSignature
}.

(** A value of interface type: nil, or a dynamic value with its methods. *)
Inductive t : Type :=
| Nil
| Dyn (m : methods).

(** [command != nil] *)
Definition not_nil (command : t) : bool :=
  match command with
  | Nil => false
  | Dyn _ => true
  end.

End Command.

(** A value of type [*Option]: nil, or the address of a heap cell. *)
Inductive Pointer : Type :=
| NilPtr
| Ptr (a : nat).

(** ** Store and effects *)

(** The memory the resolver can reach: the package variable, the cells that
    hold escaped loop variables, and the log of dynamic [Options()] calls
    (receiver names, most recent first). *)
Record Store : Type := mkStore {
  globalOptions : Options;
  heap : list Option;
  calls : list CommandName
}.

Inductive Result (A : Type) : Type :=
| Ok (a : A) (s : Store)
| Panic (msg : string).

Arguments Ok {A} a s.
Arguments Panic {A} msg.

Definition M (A : Type) : Type := Store -> Result A.

Definition ret {A : Type} (a : A) : M A := fun s => Ok a s.

Definition bind {A B : Type} (m : M A) (k : A -> M B) : M B :=
  fun s =>
    match m s with
    | Ok a s' => k a s'
    | Panic msg => Panic msg
    end.

Declare Scope go_scope.
Delimit Scope go_scope with go.
Notation "x <- m ;; k" := (bind m (fun x => k))
  (at level 100, m at next level, right associativity) : go_scope.
Open Scope go_scope.

(** Reading the package variable [globalOptions]. *)
Definition load_globalOptions : M Options :=
  fun s => Ok (globalOptions s) s.

(** [&option]: the loop variable [option] escapes, so its current value is
    kept in a cell of its own, at an address not in use before. *)
Definition address_of (option : Option) : M Pointer :=
  fun s =>
    Ok (Ptr (List.length (heap s)))
       (mkStore (globalOptions s) (heap s ++ [option]) (calls s)).

(** [command.Options()]: on a nil interface value the call panics; otherwise
    the implementation answers with its declared sequence. *)
Definition call_Options (command : Command.t) : M Options :=
  match command with
  | Command.Nil =>
      fun _ => Panic "invalid memory address or nil pointer dereference"
  | Command.Dyn m =>
      fun s =>
        Ok (Command.Options m)
           (mkStore (globalOptions s) (heap s)
                    (Command.Name m :: calls s))
  end.

(** Reading a cell. *)
Definition deref (s : Store) (p : Pointer) : option Option :=
  match p with
  | NilPtr => None
  | Ptr a => nth_error (heap s) a
  end.

(** ** The program *)

(** [var globalOptions = Options{Option{...}, Option{...}, Option{...}}] *)
Definition globalOptions_init : Options :=
  [ mkOption "-v" "--verbose" "show verbose messages";
    mkOption "-h" "--help" "show help and exit";
    mkOption "-V" "--version" "show version information and exit" ].

(** The store when the package has been initialised. *)
Definition init_store : Store := mkStore globalOptions_init [] [].

(** The test both loops apply to the loop variable:
    [option.LongName == name || option.ShortName == name]. *)
Definition matches (name : string) (option : Option) : bool :=
  String.eqb (LongName option) name || String.eqb (ShortName option) name.

(** [for _, option := range opts { if ... { return &option } }], the body
    shared by the two loops of [LookupOption].  [Some p]: the loop executed
    [return p]; [None]: the loop ran to its end. *)
Fixpoint range_return (opts : Options) (name : string)
  : M (option Pointer) :=
  match opts with
  | [] => ret None
  | option :: rest =>
      if matches name option
      then p <- address_of option ;; ret (Some p)
      else range_return rest name
  end.

Definition LookupOption (command : Command.t) (name : string) : M Pointer :=
  g <- load_globalOptions ;;
  found <- range_return g name ;;
  match found with
  | Some p => ret p
  | None =>
      if Command.not_nil command
      then
        opts <- call_Options command ;;
        found' <- range_return opts name ;;
        match found' with
        | Some p => ret p
        | None => ret NilPtr
        end
      else ret NilPtr
  end.

(** ** Vocabulary of the properties *)

(** [name] equals the short or the long name of [o], character for
    character. *)
Definition named (name : string) (o : Option) : Prop :=
  name = ShortName o \/ name = LongName o.

(** [o] is the first option of [opts], in declaration order, that [name]
    names. *)
Definition first_named (name : string) (opts : Options) (o : Option) : Prop :=
  exists before after,
    opts = before ++ o :: after /\
    named name o /\
    forall x, In x before -> ~ named name x.

(** No option of [opts] is named [name]. *)
Definition unnamed (name : string) (opts : Options) : Prop :=
  forall x, In x opts -> ~ named name x.

(** The store after [&o]. *)
Definition with_cell (o : Option) (s : Store) : Store :=
  mkStore (globalOptions s) (heap s ++ [o]) (calls s).

(** The store after a dynamic call of [Options()] on [m]. *)
Definition with_call (m : Command.methods) (s : Store) : Store :=
  mkStore (globalOptions s) (heap s) (Command.Name m :: calls s).

(** What the spec says the resolver computes, as a function of the global
    registry, the command's option sequence (absent for the nil command) and
    the name: the first global option the name names, else the first such
    option of the command, else nothing. *)
Definition resolve (globals : Options) (own : option Options) (name : string)
  : option Option :=
  match find (matches name) globals with
  | Some o => Some o
  | None =>
      match own with
      | Some opts => find (matches name) opts
      | None => None
      end
  end.

(** [c.Options()] as a value, absent for the nil command. *)
Definition own_options (c : Command.t) : option Options :=
  match c with
  | Command.Nil => None
  | Command.Dyn m => Some (Command.Options m)
  end.

(** ** Sample commands

    Command values used to instantiate the theorems.  [Tag] is the command
    of the spec's scenarios; the others declare a name of the global
    registry, a name twice, and an option without a short name. *)

Definition no_Exec : ExecSignature := fun _ _ => None.

Definition Tag : Command.methods :=
  Command.Build "tag" "tag [OPTION]... FILE TAG..." "apply tags to a file"
    [ mkOption "-a" "--all" "apply to all files" ]
    no_Exec.

Definition Loud : Command.methods :=
  Command.Build "loud" "loud" "a command that redeclares --verbose"
    [ mkOption "-l" "--verbose" "the command's own verbose" ]
    no_Exec.

Definition Twice : Command.methods :=
  Command.Build "twice" "twice" "a command that declares -d twice"
    [ mkOption "-k" "--keep" "keep";
      mkOption "-d" "--dry-run" "declared first";
      mkOption "-d" "--delete" "declared second" ]
    no_Exec.

Definition Blank : Command.methods :=
  Command.Build "blank" "blank" "a command with a long-only option"
    [ mkOption "-k" "--keep" "keep";
      mkOption "" "--quiet" "long form only";
      mkOption "" "--silent" "long form only, declared later" ]
    no_Exec.

(** ** Vocabulary of the further properties *)

(** The order in which a call examines options: the global registry, then
    the command's own sequence (nothing more for the nil command). *)
Definition search_order (c : Command.t) (s : Store) : Options :=
  globalOptions s ++
  match own_options c with
  | Some opts => opts
  | None => []
  end.

(** All the names a sequence declares, short name then long name, in
    declaration order. *)
Definition names_of (opts : Options) : list string :=
  flat_map (fun o => [ShortName o; LongName o]) opts.

(** The command [m] with another option sequence. *)
Definition with_Options (m : Command.methods) (opts : Options)
  : Command.methods :=
  Command.Build (Command.Name m) (Command.Synopsis m)
                (Command.Description m) opts (Command.Exec m).

(** A command as an interface value, with [f] applied to each option it
    declares. *)
Definition map_command (f : Option -> Option) (c : Command.t) : Command.t :=
  match c with
  | Command.Nil => Command.Nil
  | Command.Dyn m => Command.Dyn (with_Options m (map f (Command.Options m)))
  end.

(** The store with [f] applied to each option of the registry. *)
Definition map_registry (f : Option -> Option) (s : Store) : Store :=
  mkStore (map f (globalOptions s)) (heap s) (calls s).

(** A rewriting of descriptions only. *)
Definition shout (o : Option) : Option :=
  mkOption (ShortName o) (LongName o) (String.append (Description o) "!").

(** A command both names of whose first option belong to the registry. *)
Definition Hidden : Command.methods :=
  Command.Build "hidden" "hidden" "a command with a fully shadowed option"
    [ mkOption "-v" "--help" "never resolved";
      mkOption "-a" "--all" "apply to all files" ]
    no_Exec.

(** ** The name test *)

Lemma matches_named (name : string) (o : Option) :
  matches name o = true <-> named name o.
Proof.
  unfold matches, named.
  rewrite orb_true_iff, !String.eqb_eq.
  split; intros [H | H]; auto.
Qed.

Lemma matches_not_named (name : string) (o : Option) :
  matches name o = false <-> ~ named name o.
Proof.
  rewrite <- matches_named.
  destruct (matches name o); split; intro H; congruence.
Qed.

(** ** Lists: first named option *)

Lemma first_named_find (name : string) (opts : Options) (o : Option) :
  first_named name opts o <-> find (matches name) opts = Some o.
Proof.
  split.
  - intros (before & after & -> & Hn & Hb).
    induction before as [| x before IH]; simpl.
    + apply matches_named in Hn. now rewrite Hn.
    + assert (Hx : matches name x = false).
      { apply matches_not_named, Hb. now left. }
      rewrite Hx. apply IH. intros y Hy. apply Hb. now right.
  - revert o. induction opts as [| x opts IH]; simpl; intros o H.
    + discriminate.
    + destruct (matches name x) eqn:Hx.
      * injection H as <-. exists [], opts. repeat split.
        -- now apply matches_named.
        -- intros y [].
      * destruct (IH o H) as (before & after & -> & Hn & Hb).
        exists (x :: before), after. repeat split; trivial.
        intros y [<- | Hy]; [now apply matches_not_named | now apply Hb].
Qed.

Lemma unnamed_find (name : string) (opts : Options) :
  unnamed name opts <-> find (matches name) opts = None.
Proof.
  unfold unnamed. split.
  - intro H. destruct (find (matches name) opts) as [o |] eqn:E; trivial.
    apply find_some in E as [Hin Hm].
    apply matches_named in Hm. now apply H in Hin.
  - intros H x Hin. apply matches_not_named.
    now apply (find_none _ _ H).
Qed.

Lemma first_named_unique (name : string) (opts : Options) (o o' : Option) :
  first_named name opts o -> first_named name opts o' -> o = o'.
Proof.
  rewrite !first_named_find. congruence.
Qed.

Lemma first_named_In (name : string) (opts : Options) (o : Option) :
  first_named name opts o -> In o opts /\ named name o.
Proof.
  intros (before & after & -> & Hn & _). split; trivial.
  apply in_or_app. right. now left.
Qed.

Lemma named_first_named (name : string) (opts : Options) :
  (exists o, In o opts /\ named name o) ->
  exists o, first_named name opts o.
Proof.
  intros (x & Hin & Hn).
  destruct (find (matches name) opts) as [o |] eqn:E.
  - exists o. now apply first_named_find.
  - apply unnamed_find in E. now apply E in Hin.
Qed.

(** ** The loop *)

Lemma range_return_find (opts : Options) (name : string) (s : Store) :
  range_return opts name s =
  match find (matches name) opts with
  | Some o => Ok (Some (Ptr (List.length (heap s)))) (with_cell o s)
  | None => Ok None s
  end.
Proof.
  induction opts as [| x opts IH]; simpl.
  - reflexivity.
  - destruct (matches name x); [reflexivity | exact IH].
Qed.

(** ** The resolver, case by case *)

Lemma LookupOption_global (c : Command.t) (name : string) (s : Store)
      (o : Option) :
  first_named name (globalOptions s) o ->
  LookupOption c name s = Ok (Ptr (List.length (heap s))) (with_cell o s).
Proof.
  intro H. apply first_named_find in H.
  unfold LookupOption, bind, load_globalOptions.
  now rewrite range_return_find, H.
Qed.

Lemma LookupOption_own (m : Command.methods) (name : string) (s : Store)
      (o : Option) :
  unnamed name (globalOptions s) ->
  first_named name (Command.Options m) o ->
  LookupOption (Command.Dyn m) name s =
  Ok (Ptr (List.length (heap s))) (with_cell o (with_call m s)).
Proof.
  intros Hg H. apply unnamed_find in Hg. apply first_named_find in H.
  unfold LookupOption, bind, load_globalOptions.
  rewrite range_return_find, Hg. simpl.
  now rewrite range_return_find, H.
Qed.

Lemma LookupOption_miss_nil (name : string) (s : Store) :
  unnamed name (globalOptions s) ->
  LookupOption Command.Nil name s = Ok NilPtr s.
Proof.
  intros Hg. apply unnamed_find in Hg.
  unfold LookupOption, bind, load_globalOptions.
  now rewrite range_return_find, Hg.
Qed.

Lemma LookupOption_miss_dyn (m : Command.methods) (name : string)
      (s : Store) :
  unnamed name (globalOptions s) ->
  unnamed name (Command.Options m) ->
  LookupOption (Command.Dyn m) name s = Ok NilPtr (with_call m s).
Proof.
  intros Hg H. apply unnamed_find in Hg. apply unnamed_find in H.
  unfold LookupOption, bind, load_globalOptions.
  rewrite range_return_find, Hg. simpl.
  now rewrite range_return_find, H.
Qed.

Lemma deref_with_cell (o : Option) (s : Store) :
  deref (with_cell o s) (Ptr (List.length (heap s))) = Some o.
Proof.
  simpl. rewrite nth_error_app2 by lia.
  now rewrite Nat.sub_diag.
Qed.

(** Every call falls in one of the four cases. *)
Lemma LookupOption_cases (c : Command.t) (name : string) (s : Store) :
  (exists o, first_named name (globalOptions s) o /\
     LookupOption c name s =
     Ok (Ptr (List.length (heap s))) (with_cell o s)) \/
  (exists m o, c = Command.Dyn m /\ unnamed name (globalOptions s) /\
     first_named name (Command.Options m) o /\
     LookupOption c name s =
     Ok (Ptr (List.length (heap s))) (with_cell o (with_call m s))) \/
  (c = Command.Nil /\ unnamed name (globalOptions s) /\
     LookupOption c name s = Ok NilPtr s) \/
  (exists m, c = Command.Dyn m /\ unnamed name (globalOptions s) /\
     unnamed name (Command.Options m) /\
     LookupOption c name s = Ok NilPtr (with_call m s)).
Proof.
  destruct (find (matches name) (globalOptions s)) as [o |] eqn:Eg.
  - left. apply first_named_find in Eg.
    exists o. split; trivial. now apply LookupOption_global.
  - right. apply unnamed_find in Eg.
    destruct c as [| m].
    + right. left. repeat split; trivial. now apply LookupOption_miss_nil.
    + destruct (find (matches name) (Command.Options m)) as [o |] eqn:Eo.
      * left. apply first_named_find in Eo.
        exists m, o. repeat split; trivial. now apply LookupOption_own.
      * right. right. apply unnamed_find in Eo.
        exists m. repeat split; trivial. now apply LookupOption_miss_dyn.
Qed.

(** ** The declared registry *)

Lemma globalOptions_init_first (name : string) (g : Option) :
  In g globalOptions_init -> named name g ->
  first_named name globalOptions_init g.
Proof.
  intros Hin Hn. apply first_named_find.
  simpl in Hin.
  destruct Hin as [<- | [<- | [<- | []]]];
    destruct Hn as [-> | ->]; reflexivity.
Qed.

Lemma globalOptions_init_no_empty_name :
  unnamed "" globalOptions_init.
Proof.
  apply unnamed_find. reflexivity.
Qed.

(** ** Properties of the resolver *)

(** C1. Whatever the command, a name that is the short or the long name of
    an option of the declared global registry resolves to (a cell holding)
    that global option.  The command's own options are not even asked for:
    the log of [Options()] calls is as before, so an option of the command
    with the same name is never the one returned. *)
Theorem LookupOption_global_wins
        (c : Command.t) (name : string) (g : Option)
        (cells : list Option) (log : list CommandName) :
  In g globalOptions_init ->
  named name g ->
  exists a s',
    LookupOption c name (mkStore globalOptions_init cells log) = Ok (Ptr a) s'
    /\ deref s' (Ptr a) = Some g
    /\ calls s' = log.
Proof.
  intros Hin Hn.
  set (s := mkStore globalOptions_init cells log).
  exists (List.length (heap s)), (with_cell g s).
  split; [| split].
  - apply LookupOption_global. now apply globalOptions_init_first.
  - apply deref_with_cell.
  - reflexivity.
Qed.

(** C2. For a command whose option sequence has an option that [name]
    names, when no global option is so named, the resolver returns (a cell
    holding) the first such option in the command's declaration order. *)
Theorem LookupOption_command_option
        (m : Command.methods) (name : string) (s : Store) :
  (exists o, In o (Command.Options m) /\ named name o) ->
  (forall g, In g (globalOptions s) -> ~ named name g) ->
  exists o a s',
    first_named name (Command.Options m) o
    /\ LookupOption (Command.Dyn m) name s = Ok (Ptr a) s'
    /\ deref s' (Ptr a) = Some o.
Proof.
  intros Hex Hg.
  destruct (named_first_named _ _ Hex) as [o Ho].
  exists o, (List.length (heap s)), (with_cell o (with_call m s)).
  split; [exact Ho | split].
  - now apply LookupOption_own.
  - apply (deref_with_cell o (with_call m s)).
Qed.

(** C3. When [name] names no global option and no option of the command
    (the nil command has none), the call returns normally, with the nil
    pointer; it does not panic, and it leaves the registry and the heap as
    they were. *)
Theorem LookupOption_not_found
        (c : Command.t) (name : string) (s : Store) :
  (forall g, In g (globalOptions s) -> ~ named name g) ->
  (forall m o, c = Command.Dyn m -> In o (Command.Options m) ->
               ~ named name o) ->
  exists s',
    LookupOption c name s = Ok NilPtr s'
    /\ globalOptions s' = globalOptions s
    /\ heap s' = heap s.
Proof.
  intros Hg Hc. destruct c as [| m].
  - exists s. split; [| split]; trivial.
    now apply LookupOption_miss_nil.
  - exists (with_call m s). split; [| split]; trivial.
    apply LookupOption_miss_dyn; trivial.
    intros o Ho. now apply (Hc m o).
Qed.

(** C4. The global registry, as the package initialises it, is the sequence
    of exactly three options: -v/--verbose, -h/--help, -V/--version, in
    this order, with their descriptions. *)
Theorem globalOptions_registry :
  map (fun o => (ShortName o, LongName o, Description o))
      (globalOptions init_store)
  = [ ("-v", "--verbose", "show verbose messages");
      ("-h", "--help", "show help and exit");
      ("-V", "--version", "show version information and exit") ].
Proof.
  reflexivity.
Qed.

(** C5. With the nil command the call always returns normally and never
    calls [Options()] (the log is unchanged; such a call would panic).  It
    returns the first global option that [name] names, or the nil pointer
    when there is none; under the declared registry every global option is
    returned for each of its names, and "-h" gives the help option. *)
Theorem LookupOption_nil_command (name : string) (s : Store) :
  exists p s',
    LookupOption Command.Nil name s = Ok p s'
    /\ calls s' = calls s
    /\ (forall g, first_named name (globalOptions s) g ->
                  deref s' p = Some g)
    /\ ((forall g, In g (globalOptions s) -> ~ named name g) ->
        p = NilPtr /\ s' = s)
    /\ (globalOptions s = globalOptions_init ->
        (forall g, In g globalOptions_init -> named name g ->
                   deref s' p = Some g)
        /\ (name = "-h" ->
            deref s' p = Some (mkOption "-h" "--help" "show help and exit"))).
Proof.
  assert (Hgen : exists p s',
    LookupOption Command.Nil name s = Ok p s'
    /\ calls s' = calls s
    /\ (forall g, first_named name (globalOptions s) g ->
                  deref s' p = Some g)
    /\ ((forall g, In g (globalOptions s) -> ~ named name g) ->
        p = NilPtr /\ s' = s)).
  { destruct (LookupOption_cases Command.Nil name s)
      as [(o & Ho & E) | [(m & o & Hc & _) | [(_ & Hg & E) | (m & Hc & _)]]];
      try discriminate.
    - exists (Ptr (List.length (heap s))), (with_cell o s).
      repeat split; trivial.
      + intros g Hg. rewrite (first_named_unique _ _ _ _ Hg Ho).
        apply deref_with_cell.
      + exfalso. apply first_named_In in Ho as [Hin Hn]. now apply (H o).
      + exfalso. apply first_named_In in Ho as [Hin Hn]. now apply (H o).
    - exists NilPtr, s. repeat split; trivial.
      intros g Hf. apply first_named_In in Hf as [Hin Hn].
      now apply Hg in Hin. }
  destruct Hgen as (p & s' & E & Hlog & Hfirst & Hnone).
  exists p, s'. repeat split; trivial.
  - now apply Hnone.
  - now apply Hnone.
  - intros g Hin Hn. apply Hfirst. rewrite H.
    now apply globalOptions_init_first.
  - intros ->. apply Hfirst. rewrite H.
    apply globalOptions_init_first; [simpl; auto | now left].
Qed.

(** A cell that holds a value keeps it when the heap grows. *)
Lemma deref_heap_grows (s s' : Store) (p : Pointer) (o : Option)
      (fresh : list Option) :
  heap s' = heap s ++ fresh ->
  deref s p = Some o ->
  deref s' p = Some o.
Proof.
  intros Hh Hd. destruct p as [| a]; simpl in *.
  - discriminate.
  - rewrite Hh. rewrite nth_error_app1; trivial.
    apply nth_error_Some. congruence.
Qed.

(** The resolver computes [resolve], and writes at most one fresh cell. *)
Lemma LookupOption_resolve (c : Command.t) (name : string) (s : Store) :
  exists p s',
    LookupOption c name s = Ok p s'
    /\ deref s' p = resolve (globalOptions s) (own_options c) name
    /\ (p = NilPtr <-> resolve (globalOptions s) (own_options c) name = None)
    /\ globalOptions s' = globalOptions s
    /\ exists fresh,
         heap s' = heap s ++ fresh /\ List.length fresh <= 1.
Proof.
  unfold LookupOption, bind, load_globalOptions, resolve.
  rewrite range_return_find.
  destruct (find (matches name) (globalOptions s)) as [g |].
  - exists (Ptr (List.length (heap s))), (with_cell g s).
    repeat split; try discriminate.
    + apply deref_with_cell.
    + exists [g]. split; [reflexivity | simpl; lia].
  - destruct c as [| m]; simpl.
    + exists NilPtr, s. repeat split.
      exists []. split; [now rewrite app_nil_r | simpl; lia].
    + rewrite range_return_find.
      destruct (find (matches name) (Command.Options m)) as [o |].
      * exists (Ptr (List.length (heap s))), (with_cell o (with_call m s)).
        repeat split; try discriminate.
        -- apply (deref_with_cell o (with_call m s)).
        -- exists [o]. split; [reflexivity | simpl; lia].
      * exists NilPtr, (with_call m s). repeat split.
        exists []. split; [simpl; now rewrite app_nil_r | simpl; lia].
Qed.

(** C6. A returned option is one whose short or long name is [name] itself:
    the two strings are equal.  Under the declared registry "-V" gives the
    version option and "-v" the verbose option, two different results, for
    every command; and names that differ from a declared name by case, by
    a missing or an extra character, or by missing dashes resolve to
    nothing. *)
Theorem LookupOption_exact_name :
  (forall (c : Command.t) (name : string) (s s' : Store) (a : nat)
          (o : Option),
      LookupOption c name s = Ok (Ptr a) s' ->
      deref s' (Ptr a) = Some o ->
      name = ShortName o \/ name = LongName o)
  /\ (forall (c : Command.t) (cells : list Option) (log : list CommandName),
      exists a1 s1 a2 s2,
        LookupOption c "-V" (mkStore globalOptions_init cells log)
        = Ok (Ptr a1) s1
        /\ deref s1 (Ptr a1)
           = Some (mkOption "-V" "--version"
                            "show version information and exit")
        /\ LookupOption c "-v" (mkStore globalOptions_init cells log)
           = Ok (Ptr a2) s2
        /\ deref s2 (Ptr a2)
           = Some (mkOption "-v" "--verbose" "show verbose messages")
        /\ deref s1 (Ptr a1) <> deref s2 (Ptr a2))
  /\ (forall (cells : list Option) (log : list CommandName) (name : string),
      In name [ "-H"; "--Verbose"; "--VERSION"; "--verb"; "--verbose ";
                " -v"; "v"; "verbose"; "--help=1"; "-vh" ] ->
      LookupOption Command.Nil name (mkStore globalOptions_init cells log)
      = Ok NilPtr (mkStore globalOptions_init cells log))
  /\ (forall (cells : list Option) (log : list CommandName) (name : string),
      In name [ "--ALL"; "--al"; "-A"; "--all "; "all" ] ->
      LookupOption (Command.Dyn Tag) name
                   (mkStore globalOptions_init cells log)
      = Ok NilPtr (mkStore globalOptions_init cells ("tag" :: log))).
Proof.
  split; [| split; [| split]].
  - intros c name s s' a o E Hd.
    destruct (LookupOption_cases c name s)
      as [(g & Hg & E') | [(m & g & _ & _ & Hg & E') | [(_ & _ & E') |
          (m & _ & _ & _ & E')]]];
      rewrite E' in E; try discriminate; injection E as <- <-.
    + rewrite deref_with_cell in Hd. injection Hd as <-.
      now apply first_named_In in Hg.
    + assert (Ho : Some o = Some g)
        by (rewrite <- Hd; apply (deref_with_cell g (with_call m s))).
      injection Ho as ->. now apply first_named_In in Hg.
  - intros c cells log.
    set (s := mkStore globalOptions_init cells log).
    exists (List.length cells),
           (with_cell (mkOption "-V" "--version"
                                "show version information and exit") s),
           (List.length cells),
           (with_cell (mkOption "-v" "--verbose" "show verbose messages") s).
    assert (HV : deref (with_cell (mkOption "-V" "--version"
                          "show version information and exit") s)
                       (Ptr (List.length cells)) = Some _)
      by apply (deref_with_cell _ s).
    assert (Hv : deref (with_cell (mkOption "-v" "--verbose"
                          "show verbose messages") s)
                       (Ptr (List.length cells)) = Some _)
      by apply (deref_with_cell _ s).
    split; [| split; [| split; [| split]]].
    + apply (LookupOption_global c "-V" s).
      apply first_named_find. reflexivity.
    + exact HV.
    + apply (LookupOption_global c "-v" s).
      apply first_named_find. reflexivity.
    + exact Hv.
    + rewrite HV, Hv. discriminate.
  - intros cells log name Hin. simpl in Hin.
    repeat (destruct Hin as [<- | Hin]; [reflexivity |]).
    destruct Hin.
  - intros cells log name Hin. simpl in Hin.
    repeat (destruct Hin as [<- | Hin]; [reflexivity |]).
    destruct Hin.
Qed.

(** C7. Every call returns normally; what it returns is the value
    [resolve] of the registry, the command's option sequence and the name,
    and of nothing else (not of the heap, the log or the command's other
    methods).  The call leaves the registry as it was and overwrites no
    cell: the heap only grows, by at most the cell of the result.  Commands
    are values in this model, a call has no means to change their option
    sequence.  A second call with the same arguments, made in the store the
    first one left, returns the same option (or nil again), and the cell of
    the first result still holds its value. *)
Theorem LookupOption_deterministic_no_writes
        (c : Command.t) (name : string) (s : Store) :
  exists p s',
    LookupOption c name s = Ok p s'
    /\ deref s' p = resolve (globalOptions s) (own_options c) name
    /\ (p = NilPtr <-> resolve (globalOptions s) (own_options c) name = None)
    /\ globalOptions s' = globalOptions s
    /\ (exists fresh, heap s' = heap s ++ fresh /\ List.length fresh <= 1)
    /\ (forall a, a < List.length (heap s) ->
                  nth_error (heap s') a = nth_error (heap s) a)
    /\ exists p2 s'',
         LookupOption c name s' = Ok p2 s''
         /\ deref s'' p2 = deref s' p
         /\ (p2 = NilPtr <-> p = NilPtr)
         /\ deref s'' p = deref s' p
         /\ globalOptions s'' = globalOptions s.
Proof.
  destruct (LookupOption_resolve c name s)
    as (p & s' & E & Hd & Hnil & Hg & fresh & Hh & Hlen).
  destruct (LookupOption_resolve c name s')
    as (p2 & s'' & E2 & Hd2 & Hnil2 & Hg2 & fresh2 & Hh2 & Hlen2).
  rewrite Hg in Hd2, Hnil2.
  exists p, s'. repeat split; trivial.
  - apply Hnil.
  - apply Hnil.
  - exists fresh. now split.
  - intros a Ha. rewrite Hh. now apply nth_error_app1.
  - exists p2, s''. repeat split.
    + trivial.
    + congruence.
    + intro H. apply Hnil. now apply Hnil2.
    + intro H. apply Hnil2. now apply Hnil.
    + destruct (deref s' p) as [o |] eqn:Ho.
      * now apply (deref_heap_grows s' s'' p o fresh2).
      * rewrite <- Hd in Hnil. destruct Hnil as [_ Hp].
        now rewrite (Hp eq_refl).
    + congruence.
Qed.

(** C8. Within the scope that is searched (the global registry; or the
    command's own sequence, when the name names no global option), the
    resolver returns the first option that [name] names, whatever follows
    it: options declared later under the same name are not returned. *)
Theorem LookupOption_first_declared
        (c : Command.t) (name : string) (s : Store)
        (scope before after : Options) (o : Option) :
  scope = globalOptions s
  \/ (exists m, c = Command.Dyn m /\ scope = Command.Options m /\
                forall g, In g (globalOptions s) -> ~ named name g) ->
  scope = before ++ o :: after ->
  name = ShortName o \/ name = LongName o ->
  (forall x, In x before -> ~ (name = ShortName x \/ name = LongName x)) ->
  exists a s',
    LookupOption c name s = Ok (Ptr a) s'
    /\ deref s' (Ptr a) = Some o.
Proof.
  intros Hscope Hsplit Hn Hb.
  assert (Hf : first_named name scope o) by (exists before, after; auto).
  destruct Hscope as [-> | (m & -> & -> & Hg)].
  - exists (List.length (heap s)), (with_cell o s). split.
    + now apply LookupOption_global.
    + apply deref_with_cell.
  - exists (List.length (heap s)), (with_cell o (with_call m s)). split.
    + now apply LookupOption_own.
    + apply (deref_with_cell o (with_call m s)).
Qed.

(** C9. A result that is not nil designates a cell holding an option that
    is an element of the global registry or of the command's own sequence,
    and whose short or long name is [name]. *)
Theorem LookupOption_sound
        (c : Command.t) (name : string) (s s' : Store) (p : Pointer) :
  LookupOption c name s = Ok p s' ->
  p <> NilPtr ->
  exists o,
    deref s' p = Some o
    /\ (name = ShortName o \/ name = LongName o)
    /\ (In o (globalOptions s)
        \/ exists m, c = Command.Dyn m /\ In o (Command.Options m)).
Proof.
  intros E Hp.
  destruct (LookupOption_cases c name s)
    as [(g & Hg & E') | [(m & g & Hc & _ & Hg & E') | [(_ & _ & E') |
        (m & _ & _ & _ & E')]]];
    rewrite E' in E; injection E as <- <-; try (now elim Hp);
    exists g; apply first_named_In in Hg as [Hin Hn].
  - split; [apply deref_with_cell | split; [exact Hn | now left]].
  - split; [apply (deref_with_cell g (with_call m s)) |
            split; [exact Hn | right; now exists m]].
Qed.

(** C10. The empty name is looked up like any other.  No option of the
    declared global registry has an empty short or long name, so for a
    command with an option whose short name or long name is empty, the
    empty name resolves to the first such option of the command. *)
Theorem LookupOption_empty_name
        (m : Command.methods) (cells : list Option)
        (log : list CommandName) :
  (exists o, In o (Command.Options m) /\
             (ShortName o = "" \/ LongName o = "")) ->
  (forall g, In g globalOptions_init ->
             ShortName g <> "" /\ LongName g <> "")
  /\ exists before o after a s',
       Command.Options m = before ++ o :: after
       /\ (ShortName o = "" \/ LongName o = "")
       /\ (forall x, In x before -> ShortName x <> "" /\ LongName x <> "")
       /\ LookupOption (Command.Dyn m) ""
                       (mkStore globalOptions_init cells log)
          = Ok (Ptr a) s'
       /\ deref s' (Ptr a) = Some o.
Proof.
  intros (x & Hin & Hx). split.
  - intros g Hg. split; intro H;
      apply (globalOptions_init_no_empty_name g Hg);
      [left | right]; now rewrite H.
  - assert (Hex : exists o, In o (Command.Options m) /\ named "" o).
    { exists x. split; trivial. destruct Hx as [H | H]; [left | right]; auto. }
    destruct (named_first_named _ _ Hex) as [o Ho].
    pose proof Ho as (before & after & Hsplit & Hn & Hb).
    set (s := mkStore globalOptions_init cells log).
    exists before, o, after, (List.length (heap s)),
           (with_cell o (with_call m s)).
    split; [exact Hsplit | split; [| split; [| split]]].
    + destruct Hn as [H | H]; [left | right]; auto.
    + intros y Hy. split; intro H; apply (Hb y Hy);
        [left | right]; now rewrite H.
    + apply LookupOption_own; trivial.
      apply globalOptions_init_no_empty_name.
    + apply (deref_with_cell o (with_call m s)).
Qed.

(** ** The scenarios of the spec, evaluated *)

Example scenario_nil_help :
  LookupOption Command.Nil "-h" init_store
  = Ok (Ptr 0)
       (mkStore globalOptions_init
                [mkOption "-h" "--help" "show help and exit"] []).
Proof. reflexivity. Qed.

Example scenario_Tag_all :
  LookupOption (Command.Dyn Tag) "--all" init_store
  = Ok (Ptr 0)
       (mkStore globalOptions_init
                [mkOption "-a" "--all" "apply to all files"] ["tag"]).
Proof. reflexivity. Qed.

Example scenario_Tag_bogus :
  LookupOption (Command.Dyn Tag) "--bogus" init_store
  = Ok NilPtr (mkStore globalOptions_init [] ["tag"]).
Proof. reflexivity. Qed.

Example scenario_Tag_version :
  LookupOption (Command.Dyn Tag) "-V" init_store
  = Ok (Ptr 0)
       (mkStore globalOptions_init
                [mkOption "-V" "--version"
                          "show version information and exit"] []).
Proof. reflexivity. Qed.

(** A redeclared global name gives the global option; the command's option
    of that name is still found under its other name. *)
Example scenario_Loud :
  LookupOption (Command.Dyn Loud) "--verbose" init_store
  = Ok (Ptr 0)
       (mkStore globalOptions_init
                [mkOption "-v" "--verbose" "show verbose messages"] [])
  /\ LookupOption (Command.Dyn Loud) "-l" init_store
     = Ok (Ptr 0)
          (mkStore globalOptions_init
                   [mkOption "-l" "--verbose" "the command's own verbose"]
                   ["loud"]).
Proof. split; reflexivity. Qed.

(** Two calls in a row: two cells, holding the same value. *)
Example scenario_two_calls :
  (p1 <- LookupOption (Command.Dyn Tag) "-a" ;;
   p2 <- LookupOption (Command.Dyn Tag) "-a" ;;
   ret (p1, p2)) init_store
  = Ok (Ptr 0, Ptr 1)
       (mkStore globalOptions_init
                [mkOption "-a" "--all" "apply to all files";
                 mkOption "-a" "--all" "apply to all files"]
                ["tag"; "tag"]).
Proof. reflexivity. Qed.

(** A name declared twice, and the empty name. *)
Example scenario_Twice_Blank :
  LookupOption (Command.Dyn Twice) "-d" init_store
  = Ok (Ptr 0)
       (mkStore globalOptions_init
                [mkOption "-d" "--dry-run" "declared first"] ["twice"])
  /\ LookupOption (Command.Dyn Blank) "" init_store
     = Ok (Ptr 0)
          (mkStore globalOptions_init
                   [mkOption "" "--quiet" "long form only"] ["blank"])
  /\ LookupOption (Command.Dyn Tag) "" init_store
     = Ok NilPtr (mkStore globalOptions_init [] ["tag"]).
Proof. repeat split. Qed.

(** A call of [Options()] on the nil command would panic. *)
Example call_Options_nil_panics (s : Store) :
  call_Options Command.Nil s
  = Panic "invalid memory address or nil pointer dereference".
Proof. reflexivity. Qed.

(** ** The theorems at concrete inputs *)

Lemma LookupOption_global_wins_Loud :
  In (mkOption "-v" "--verbose" "show verbose messages") globalOptions_init
  /\ named "--verbose" (mkOption "-v" "--verbose" "show verbose messages")
  /\ In (mkOption "-l" "--verbose" "the command's own verbose")
        (Command.Options Loud)
  /\ exists a s',
       LookupOption (Command.Dyn Loud) "--verbose" init_store = Ok (Ptr a) s'
       /\ deref s' (Ptr a)
          = Some (mkOption "-v" "--verbose" "show verbose messages")
       /\ calls s' = [].
Proof.
  split; [simpl; auto |].
  split; [right; reflexivity |].
  split; [simpl; auto |].
  apply (LookupOption_global_wins (Command.Dyn Loud) "--verbose"
           (mkOption "-v" "--verbose" "show verbose messages") [] []).
  - simpl; auto.
  - right; reflexivity.
Defined.

Lemma LookupOption_command_option_Tag :
  (exists o, In o (Command.Options Tag) /\ named "--all" o)
  /\ (forall g, In g (globalOptions init_store) -> ~ named "--all" g)
  /\ exists o a s',
       first_named "--all" (Command.Options Tag) o
       /\ LookupOption (Command.Dyn Tag) "--all" init_store = Ok (Ptr a) s'
       /\ deref s' (Ptr a) = Some o.
Proof.
  assert (H1 : exists o, In o (Command.Options Tag) /\ named "--all" o).
  { exists (mkOption "-a" "--all" "apply to all files").
    split; [simpl; auto | right; reflexivity]. }
  assert (H2 : forall g, In g (globalOptions init_store) ->
                         ~ named "--all" g).
  { simpl. intros g [<- | [<- | [<- | []]]] [H | H]; discriminate H. }
  split; [exact H1 |].
  split; [exact H2 |].
  exact (LookupOption_command_option Tag "--all" init_store H1 H2).
Defined.

Lemma LookupOption_not_found_Tag :
  (forall g, In g (globalOptions init_store) -> ~ named "--bogus" g)
  /\ (forall m o, Command.Dyn Tag = Command.Dyn m ->
                  In o (Command.Options m) -> ~ named "--bogus" o)
  /\ exists s',
       LookupOption (Command.Dyn Tag) "--bogus" init_store = Ok NilPtr s'
       /\ globalOptions s' = globalOptions init_store
       /\ heap s' = heap init_store.
Proof.
  assert (H1 : forall g, In g (globalOptions init_store) ->
                         ~ named "--bogus" g).
  { simpl. intros g [<- | [<- | [<- | []]]] [H | H]; discriminate H. }
  assert (H2 : forall m o, Command.Dyn Tag = Command.Dyn m ->
                           In o (Command.Options m) -> ~ named "--bogus" o).
  { intros m o E. injection E as <-. simpl.
    intros [<- | []] [H | H]; discriminate H. }
  split; [exact H1 |].
  split; [exact H2 |].
  exact (LookupOption_not_found (Command.Dyn Tag) "--bogus" init_store H1 H2).
Defined.

Lemma LookupOption_first_declared_Twice :
  Command.Options Twice
  = [mkOption "-k" "--keep" "keep"]
      ++ mkOption "-d" "--dry-run" "declared first"
      :: [mkOption "-d" "--delete" "declared second"]
  /\ exists a s',
       LookupOption (Command.Dyn Twice) "-d" init_store = Ok (Ptr a) s'
       /\ deref s' (Ptr a)
          = Some (mkOption "-d" "--dry-run" "declared first").
Proof.
  split; [reflexivity |].
  apply (LookupOption_first_declared (Command.Dyn Twice) "-d" init_store
           (Command.Options Twice)
           [mkOption "-k" "--keep" "keep"]
           [mkOption "-d" "--delete" "declared second"]
           (mkOption "-d" "--dry-run" "declared first")).
  - right. exists Twice. split; [reflexivity |]. split; [reflexivity |].
    simpl. intros g [<- | [<- | [<- | []]]] [H | H]; discriminate H.
  - reflexivity.
  - left; reflexivity.
  - simpl. intros x [<- | []] [H | H]; discriminate H.
Defined.

Lemma LookupOption_sound_Tag :
  LookupOption (Command.Dyn Tag) "-a" init_store
  = Ok (Ptr 0)
       (mkStore globalOptions_init
                [mkOption "-a" "--all" "apply to all files"] ["tag"])
  /\ Ptr 0 <> NilPtr
  /\ exists o,
    deref (mkStore globalOptions_init
                   [mkOption "-a" "--all" "apply to all files"] ["tag"])
          (Ptr 0) = Some o
    /\ ("-a" = ShortName o \/ "-a" = LongName o)
    /\ (In o (globalOptions init_store)
        \/ exists m, Command.Dyn Tag = Command.Dyn m /\
                     In o (Command.Options m)).
Proof.
  split; [reflexivity |].
  split; [discriminate |].
  apply (LookupOption_sound (Command.Dyn Tag) "-a" init_store
           (mkStore globalOptions_init
                    [mkOption "-a" "--all" "apply to all files"] ["tag"])
           (Ptr 0)).
  - reflexivity.
  - discriminate.
Defined.

Lemma LookupOption_empty_name_Blank :
  (exists o, In o (Command.Options Blank) /\
             (ShortName o = "" \/ LongName o = ""))
  /\ exists before o after a s',
       Command.Options Blank = before ++ o :: after
       /\ (ShortName o = "" \/ LongName o = "")
       /\ (forall x, In x before -> ShortName x <> "" /\ LongName x <> "")
       /\ LookupOption (Command.Dyn Blank) "" init_store = Ok (Ptr a) s'
       /\ deref s' (Ptr a) = Some o.
Proof.
  assert (H : exists o, In o (Command.Options Blank) /\
                        (ShortName o = "" \/ LongName o = "")).
  { exists (mkOption "" "--quiet" "long form only").
    split; [simpl; auto | left; reflexivity]. }
  split; [exact H |].
  exact (proj2 (LookupOption_empty_name Blank [] [] H)).
Defined.

(** ** Further lemmas *)

Lemma find_app_found (f : Option -> bool) (l extra : Options) (o : Option) :
  find f l = Some o -> find f (l ++ extra) = Some o.
Proof.
  induction l as [| x l IH]; simpl; intro H.
  - discriminate.
  - destruct (f x); [exact H | now apply IH].
Qed.

Lemma find_app_missed (f : Option -> bool) (l extra : Options) :
  find f l = None -> find f (l ++ extra) = find f extra.
Proof.
  induction l as [| x l IH]; simpl; intro H.
  - reflexivity.
  - destruct (f x); [discriminate | now apply IH].
Qed.

Lemma resolve_search_order (c : Command.t) (name : string) (s : Store) :
  resolve (globalOptions s) (own_options c) name
  = find (matches name) (search_order c s).
Proof.
  unfold resolve, search_order.
  destruct (find (matches name) (globalOptions s)) as [g |] eqn:Eg.
  - symmetry. now apply find_app_found.
  - rewrite (find_app_missed _ _ _ Eg).
    destruct (own_options c); reflexivity.
Qed.

Lemma In_search_order (c : Command.t) (s : Store) (o : Option) :
  In o (search_order c s) <->
  In o (globalOptions s)
  \/ exists m, c = Command.Dyn m /\ In o (Command.Options m).
Proof.
  unfold search_order. rewrite in_app_iff.
  destruct c as [| m]; simpl.
  - split; [intros [H | []]; now left | intros [H | (m & E & _)]];
      [now left | discriminate].
  - split; intros [H | H]; auto.
    + right. now exists m.
    + destruct H as (m' & E & H). injection E as <-. now right.
Qed.

Lemma named_in_names (name : string) (opts : Options) (o : Option) :
  In o opts -> named name o -> In name (names_of opts).
Proof.
  intros Hin Hn. unfold names_of. apply in_flat_map.
  exists o. split; trivial.
  destruct Hn as [-> | ->]; simpl; auto.
Qed.

Lemma NoDup_names_unique (opts : Options) :
  NoDup (names_of opts) ->
  forall (name : string) (o x : Option),
    In o opts -> In x opts -> named name o -> named name x -> o = x.
Proof.
  induction opts as [| y opts IH]; intros Hnd name o x Ho Hx Hno Hnx.
  - destruct Ho.
  - simpl in Hnd.
    apply NoDup_cons_iff in Hnd as [Hs Hnd].
    apply NoDup_cons_iff in Hnd as [Hl Hnd].
    assert (Hclash : forall z, In z opts -> named name z ->
                               named name y -> False).
    { intros z Hz Hnz [E | E]; pose proof (named_in_names _ _ _ Hz Hnz) as Hi;
        rewrite E in Hi; [apply Hs; now right | now apply Hl]. }
    destruct Ho as [<- | Ho], Hx as [<- | Hx]; trivial.
    + exfalso. now apply (Hclash x).
    + exfalso. now apply (Hclash o).
    + now apply (IH Hnd name).
Qed.

(** A call has one outcome. *)
Lemma LookupOption_outcome (c : Command.t) (name : string) (s s' : Store)
      (p : Pointer) :
  LookupOption c name s = Ok p s' ->
  deref s' p = find (matches name) (search_order c s)
  /\ (p = NilPtr <-> find (matches name) (search_order c s) = None)
  /\ globalOptions s' = globalOptions s
  /\ exists fresh, heap s' = heap s ++ fresh /\ List.length fresh <= 1.
Proof.
  intro E.
  destruct (LookupOption_resolve c name s)
    as (p0 & s0 & E0 & Hd & Hnil & Hg & Hh).
  rewrite E in E0. injection E0 as <- <-.
  rewrite resolve_search_order in Hd, Hnil. auto.
Qed.

(** ** Further properties of the resolver *)

(** X1. A call asks the command for its options at most once, and exactly
    when it has to: not at all when the name names a global option or the
    command is nil, once (after the registry has been searched in vain)
    otherwise. *)
Theorem LookupOption_Options_calls
        (c : Command.t) (name : string) (s : Store) :
  exists p s',
    LookupOption c name s = Ok p s'
    /\ ((exists g, In g (globalOptions s) /\ named name g) ->
        calls s' = calls s)
    /\ (c = Command.Nil -> calls s' = calls s)
    /\ (forall m, c = Command.Dyn m ->
                  (forall g, In g (globalOptions s) -> ~ named name g) ->
                  calls s' = Command.Name m :: calls s).
Proof.
  destruct (LookupOption_cases c name s)
    as [(g & Hg & E) | [(m & o & Hc & Hu & Ho & E) | [(Hc & Hu & E) |
        (m & Hc & Hu & Ho & E)]]];
    rewrite E; eexists; eexists; (split; [reflexivity |]).
  - split; [reflexivity | split; [reflexivity |]].
    intros m _ H. exfalso.
    apply first_named_In in Hg as [Hin Hn]. now apply (H g).
  - subst c. split; [| split].
    + intros (g & Hin & Hn). exfalso. now apply (Hu g).
    + discriminate.
    + intros m' E' _. now injection E' as <-.
  - subst c. split; [reflexivity | split; [reflexivity |]]. discriminate.
  - subst c. split; [| split].
    + intros (g & Hin & Hn). exfalso. now apply (Hu g).
    + discriminate.
    + intros m' E' _. now injection E' as <-.
Qed.

(** X2. The result is nil exactly when the name names no option of the
    registry and no option of the command: a declared name is never
    reported as unknown, for any registry. *)
Theorem LookupOption_nil_iff_undeclared
        (c : Command.t) (name : string) (s : Store) :
  exists p s',
    LookupOption c name s = Ok p s'
    /\ (p = NilPtr <->
        (forall g, In g (globalOptions s) -> ~ named name g)
        /\ (forall m o, c = Command.Dyn m -> In o (Command.Options m) ->
                        ~ named name o)).
Proof.
  destruct (LookupOption_resolve c name s)
    as (p & s' & E & _ & _).
  exists p, s'. split; [exact E |].
  destruct (LookupOption_outcome _ _ _ _ _ E) as (_ & Hnil & _).
  rewrite Hnil, <- unnamed_find. unfold unnamed. split.
  - intro H. split.
    + intros g Hg. apply H, In_search_order. now left.
    + intros m o Hc Ho. apply H, In_search_order. right. now exists m.
  - intros [Hg Ho] x Hx. apply In_search_order in Hx as [Hx | (m & Hc & Hx)].
    + now apply Hg.
    + now apply (Ho m).
Qed.

(** The heap after a call: one more cell under a positive result, the same
    heap under nil. *)
Lemma LookupOption_heap (c : Command.t) (name : string) (s : Store) :
  (exists o s',
      LookupOption c name s = Ok (Ptr (List.length (heap s))) s'
      /\ heap s' = heap s ++ [o])
  \/ (exists s', LookupOption c name s = Ok NilPtr s' /\ heap s' = heap s).
Proof.
  destruct (LookupOption_cases c name s)
    as [(g & _ & E) | [(m & o & _ & _ & _ & E) | [(_ & _ & E) |
        (m & _ & _ & _ & E)]]]; rewrite E.
  - left. now exists g, (with_cell g s).
  - left. now exists o, (with_cell o (with_call m s)).
  - right. now exists s.
  - right. now exists (with_call m s).
Qed.

(** X3. A positive result is the address of a cell that did not exist
    before the call: nothing could be read at that address in the store the
    call started from, the call adds exactly this one cell, and a nil result
    adds none.  A positive result of the next call, whatever its arguments,
    is another address. *)
Theorem LookupOption_fresh_cell
        (c : Command.t) (name : string) (s : Store) :
  exists p s',
    LookupOption c name s = Ok p s'
    /\ (p = NilPtr -> heap s' = heap s)
    /\ (forall a, p = Ptr a ->
          deref s p = None
          /\ exists o, heap s' = heap s ++ [o] /\ deref s' p = Some o)
    /\ (forall c2 name2 p2 s2,
          LookupOption c2 name2 s' = Ok p2 s2 -> p2 <> NilPtr -> p2 <> p).
Proof.
  destruct (LookupOption_heap c name s) as [(o & s' & E & Hh) | (s' & E & Hh)].
  - exists (Ptr (List.length (heap s))), s'.
    split; [exact E | split; [discriminate | split]].
    + intros a _. split.
      * simpl. apply nth_error_None. lia.
      * exists o. split; [exact Hh |].
        simpl. rewrite Hh, nth_error_app2 by lia. now rewrite Nat.sub_diag.
    + intros c2 name2 p2 s2 E2 Hp2.
      destruct (LookupOption_heap c2 name2 s')
        as [(o2 & s3 & E3 & _) | (s3 & E3 & _)];
        rewrite E3 in E2; injection E2 as <- <-.
      * rewrite Hh, length_app. simpl. intro H. injection H as H. lia.
      * now elim Hp2.
  - exists NilPtr, s'.
    split; [exact E | split; [intros _; exact Hh | split]].
    + discriminate.
    + intros c2 name2 p2 s2 _ Hp2. exact Hp2.
Qed.

(** The resolver as an equation: the two scans, spelled out. *)
Lemma LookupOption_eq (c : Command.t) (name : string) (s : Store) :
  LookupOption c name s =
  match find (matches name) (globalOptions s) with
  | Some g => Ok (Ptr (List.length (heap s))) (with_cell g s)
  | None =>
      match c with
      | Command.Nil => Ok NilPtr s
      | Command.Dyn m =>
          match find (matches name) (Command.Options m) with
          | Some o =>
              Ok (Ptr (List.length (heap s))) (with_cell o (with_call m s))
          | None => Ok NilPtr (with_call m s)
          end
      end
  end.
Proof.
  unfold LookupOption, bind, load_globalOptions.
  rewrite range_return_find.
  destruct (find (matches name) (globalOptions s)); [reflexivity |].
  destruct c as [| m]; simpl; [reflexivity |].
  rewrite range_return_find.
  destruct (find (matches name) (Command.Options m)); reflexivity.
Qed.

Lemma find_matches_map (f : Option -> Option) (name : string)
      (opts : Options) :
  (forall o, ShortName (f o) = ShortName o /\ LongName (f o) = LongName o) ->
  find (matches name) (map f opts)
  = option_map f (find (matches name) opts).
Proof.
  intro Hf. induction opts as [| x opts IH]; simpl; [reflexivity |].
  assert (Hx : matches name (f x) = matches name x).
  { unfold matches. destruct (Hf x) as [-> ->]. reflexivity. }
  rewrite Hx. destruct (matches name x); [reflexivity | exact IH].
Qed.

(** X4. Declaring further options after the ones a command already has
    changes nothing for a name that resolved before: the call has the same
    outcome, result and store. *)
Theorem LookupOption_append_stable
        (m : Command.methods) (extra : Options) (name : string)
        (s s1 : Store) (a : nat) :
  LookupOption (Command.Dyn m) name s = Ok (Ptr a) s1 ->
  LookupOption
    (Command.Dyn (with_Options m (Command.Options m ++ extra))) name s
  = Ok (Ptr a) s1.
Proof.
  rewrite !LookupOption_eq. simpl.
  destruct (find (matches name) (globalOptions s)); [trivial |].
  destruct (find (matches name) (Command.Options m)) as [o |] eqn:Eo.
  - now rewrite (find_app_found _ _ extra _ Eo).
  - discriminate.
Qed.

(** X5. When the names declared by the registry and by the command are
    pairwise distinct, every declared option is resolved by each of its two
    names, to itself. *)
Theorem LookupOption_reaches_every_option
        (c : Command.t) (name : string) (s : Store) (o : Option) :
  NoDup (names_of (search_order c s)) ->
  In o (globalOptions s)
  \/ (exists m, c = Command.Dyn m /\ In o (Command.Options m)) ->
  name = ShortName o \/ name = LongName o ->
  exists a s',
    LookupOption c name s = Ok (Ptr a) s'
    /\ deref s' (Ptr a) = Some o.
Proof.
  intros Hnd Hin Hn. apply In_search_order in Hin.
  assert (Hfind : find (matches name) (search_order c s) = Some o).
  { destruct (find (matches name) (search_order c s)) as [x |] eqn:E.
    - apply find_some in E as [Hx Hm]. apply matches_named in Hm.
      f_equal. now apply (NoDup_names_unique _ Hnd name).
    - apply unnamed_find in E. now apply E in Hin. }
  destruct (LookupOption_resolve c name s) as (p & s' & E & _).
  destruct (LookupOption_outcome _ _ _ _ _ E) as (Hd & _).
  rewrite Hfind in Hd.
  destruct p as [| a]; [discriminate |].
  now exists a, s'.
Qed.

(** X6. An option whose short name and long name both name options of the
    registry, and which is not itself in the registry, is never the result
    of a call, under any name and for any command. *)
Theorem LookupOption_fully_shadowed
        (c : Command.t) (name : string) (s s' : Store) (p : Pointer)
        (o : Option) :
  (exists g, In g (globalOptions s) /\ named (ShortName o) g) ->
  (exists g, In g (globalOptions s) /\ named (LongName o) g) ->
  ~ In o (globalOptions s) ->
  LookupOption c name s = Ok p s' ->
  deref s' p <> Some o.
Proof.
  intros Hs Hl Hout E Hd.
  destruct (LookupOption_outcome _ _ _ _ _ E) as (Hd' & _).
  rewrite Hd in Hd'. symmetry in Hd'.
  pose proof (find_some _ _ Hd') as [_ Hm]. apply matches_named in Hm.
  assert (Hg : exists g, In g (globalOptions s) /\ named name g).
  { destruct Hm as [-> | ->]; assumption. }
  destruct (named_first_named _ _ Hg) as [g Hf].
  pose proof (first_named_In _ _ _ Hf) as [Hin _].
  apply first_named_find in Hf.
  unfold search_order in Hd'.
  rewrite (find_app_found _ _ _ _ Hf) in Hd'.
  injection Hd' as ->. now apply Hout.
Qed.

(** X7. The option a call returns is the first one that the name names in
    the registry followed by the command's own options: the two loops act
    as one scan of that sequence. *)
Theorem LookupOption_first_in_search_order
        (c : Command.t) (name : string) (s : Store) :
  exists p s',
    LookupOption c name s = Ok p s'
    /\ forall o, deref s' p = Some o <->
                 first_named name (search_order c s) o.
Proof.
  destruct (LookupOption_resolve c name s) as (p & s' & E & _).
  exists p, s'. split; [exact E |].
  destruct (LookupOption_outcome _ _ _ _ _ E) as (Hd & _).
  intro o. now rewrite Hd, first_named_find.
Qed.

(** X8. Only the two names of an option take part in the resolution:
    rewriting every option of the registry and of the command by a function
    that keeps both names (new descriptions, say) gives the same pointer,
    the same log, and the rewritten option in the cell. *)
Theorem LookupOption_ignores_descriptions
        (f : Option -> Option) (c : Command.t) (name : string) (s : Store) :
  (forall o, ShortName (f o) = ShortName o /\ LongName (f o) = LongName o) ->
  exists p s1 s2,
    LookupOption c name s = Ok p s1
    /\ LookupOption (map_command f c) name (map_registry f s) = Ok p s2
    /\ deref s2 p = option_map f (deref s1 p)
    /\ calls s2 = calls s1.
Proof.
  intro Hf. rewrite !LookupOption_eq. simpl.
  rewrite (find_matches_map f name _ Hf).
  destruct (find (matches name) (globalOptions s)) as [g |]; simpl.
  - exists (Ptr (List.length (heap s))), (with_cell g s),
           (with_cell (f g) (map_registry f s)).
    repeat split.
    transitivity (Some (f g)).
    + apply (deref_with_cell (f g) (map_registry f s)).
    + symmetry. apply (f_equal (option_map f) (deref_with_cell g s)).
  - destruct c as [| m]; simpl.
    + exists NilPtr, s, (map_registry f s). repeat split.
    + rewrite (find_matches_map f name _ Hf).
      destruct (find (matches name) (Command.Options m)) as [o |]; simpl.
      * exists (Ptr (List.length (heap s))), (with_cell o (with_call m s)).
        eexists. split; [reflexivity | split; [reflexivity | split]].
        -- transitivity (Some (f o)).
           ++ apply (deref_with_cell (f o) (map_registry f (with_call m s))).
           ++ symmetry.
              apply (f_equal (option_map f)
                             (deref_with_cell o (with_call m s))).
        -- reflexivity.
      * exists NilPtr, (with_call m s). eexists. repeat split.
Qed.

(** X9. For any registry, a name that names one of its options is resolved
    without regard to the command: the call has the outcome it has with the
    nil command, result and store. *)
Theorem LookupOption_global_any_command
        (c : Command.t) (name : string) (s : Store) :
  (exists g, In g (globalOptions s) /\ named name g) ->
  LookupOption c name s = LookupOption Command.Nil name s.
Proof.
  intros (g & Hin & Hn). rewrite !LookupOption_eq.
  destruct (find (matches name) (globalOptions s)) eqn:E; [reflexivity |].
  apply unnamed_find in E. now apply E in Hin.
Qed.

(** X10. Calls do not interfere.  After any call, a second call returns
    what it would have returned had it been made first, and the result of
    the first call still designates the same option. *)
Theorem LookupOption_no_interference
        (c1 c2 : Command.t) (name1 name2 : string) (s : Store) :
  exists p1 s1 p2 s2 q t,
    LookupOption c1 name1 s = Ok p1 s1
    /\ LookupOption c2 name2 s1 = Ok p2 s2
    /\ LookupOption c2 name2 s = Ok q t
    /\ deref s2 p2 = deref t q
    /\ (p2 = NilPtr <-> q = NilPtr)
    /\ deref s2 p1 = deref s1 p1.
Proof.
  destruct (LookupOption_resolve c1 name1 s)
    as (p1 & s1 & E1 & Hd1 & Hn1 & Hg1 & _).
  destruct (LookupOption_resolve c2 name2 s1)
    as (p2 & s2 & E2 & Hd2 & Hn2 & _ & fresh & Hh & _).
  destruct (LookupOption_resolve c2 name2 s)
    as (q & t & E & Hd & Hn & _).
  rewrite Hg1 in Hd2, Hn2.
  exists p1, s1, p2, s2, q, t.
  repeat split; trivial.
  - congruence.
  - intro H. apply Hn. now apply Hn2.
  - intro H. apply Hn2. now apply Hn.
  - destruct (deref s1 p1) as [o |] eqn:Ho.
    + now apply (deref_heap_grows s1 s2 p1 o fresh).
    + rewrite <- Hd1 in Hn1. destruct Hn1 as [_ Hp].
      now rewrite (Hp eq_refl).
Qed.

(** ** The further properties at concrete inputs *)

Lemma LookupOption_append_stable_Tag :
  LookupOption (Command.Dyn Tag) "-a" init_store
  = Ok (Ptr 0)
       (mkStore globalOptions_init
                [mkOption "-a" "--all" "apply to all files"] ["tag"])
  /\ LookupOption
       (Command.Dyn
          (with_Options Tag
             (Command.Options Tag
                ++ [mkOption "-a" "--again" "declared later"])))
       "-a" init_store
     = Ok (Ptr 0)
          (mkStore globalOptions_init
                   [mkOption "-a" "--all" "apply to all files"] ["tag"]).
Proof.
  split; [reflexivity |].
  apply (LookupOption_append_stable Tag
           [mkOption "-a" "--again" "declared later"] "-a" init_store).
  reflexivity.
Defined.

Lemma LookupOption_reaches_every_option_Tag :
  NoDup (names_of (search_order (Command.Dyn Tag) init_store))
  /\ exists a s',
       LookupOption (Command.Dyn Tag) "--all" init_store = Ok (Ptr a) s'
       /\ deref s' (Ptr a)
          = Some (mkOption "-a" "--all" "apply to all files").
Proof.
  assert (Hnd : NoDup (names_of (search_order (Command.Dyn Tag) init_store))).
  { simpl.
    repeat (apply NoDup_cons; [simpl; intuition discriminate |]).
    apply NoDup_nil. }
  split; [exact Hnd |].
  apply (LookupOption_reaches_every_option (Command.Dyn Tag) "--all"
           init_store (mkOption "-a" "--all" "apply to all files") Hnd).
  - right. exists Tag. split; [reflexivity | simpl; auto].
  - right. reflexivity.
Defined.

Lemma LookupOption_fully_shadowed_Hidden :
  In (mkOption "-v" "--help" "never resolved") (Command.Options Hidden)
  /\ deref (mkStore globalOptions_init
                    [mkOption "-v" "--verbose" "show verbose messages"] [])
           (Ptr 0)
     <> Some (mkOption "-v" "--help" "never resolved").
Proof.
  split; [simpl; auto |].
  apply (LookupOption_fully_shadowed (Command.Dyn Hidden) "-v" init_store
           (mkStore globalOptions_init
                    [mkOption "-v" "--verbose" "show verbose messages"] [])
           (Ptr 0) (mkOption "-v" "--help" "never resolved")).
  - exists (mkOption "-v" "--verbose" "show verbose messages").
    split; [simpl; auto | left; reflexivity].
  - exists (mkOption "-h" "--help" "show help and exit").
    split; [simpl; auto | right; reflexivity].
  - simpl. intros [H | [H | [H | []]]]; discriminate H.
  - reflexivity.
Defined.

Lemma LookupOption_ignores_descriptions_Tag :
  exists p s1 s2,
    LookupOption (Command.Dyn Tag) "--all" init_store = Ok p s1
    /\ LookupOption (map_command shout (Command.Dyn Tag)) "--all"
                    (map_registry shout init_store) = Ok p s2
    /\ deref s2 p = option_map shout (deref s1 p)
    /\ calls s2 = calls s1.
Proof.
  apply (LookupOption_ignores_descriptions shout (Command.Dyn Tag) "--all"
           init_store).
  intro o. split; reflexivity.
Defined.

Lemma LookupOption_global_any_command_Tag :
  LookupOption (Command.Dyn Tag) "-V" init_store
  = LookupOption Command.Nil "-V" init_store.
Proof.
  apply (LookupOption_global_any_command (Command.Dyn Tag) "-V" init_store).
  exists (mkOption "-V" "--version" "show version information and exit").
  split; [simpl; auto | left; reflexivity].
Defined.
